(** * Hermes bytecode generator: [include/hermes/BCGen/HBC/BytecodeGenerator.h]

    A shallow embedding of the allocation table, the per-function generator
    and the module generator declared in that header, with the properties
    proved about them.  Containers follow the code: [DenseMap] is a [gmap],
    [SmallVector] and [std::vector] are lists, fixed-width integers are [Z]
    with the narrowing written out. *)

From Stdlib Require Import ZArith Lia.
From stdpp Require Import gmap list strings.

Local Open Scope Z_scope.

(** ** Fixed-width integers *)

(** Conversion of an integer value to [uint8_t] / [uint32_t]: the value
    modulo 2^8 / 2^32, as C++ defines the narrowing of unsigned types. *)
Definition to_uint8 (z : Z) : Z := z mod 2 ^ 8.
Definition to_uint32 (z : Z) : Z := z mod 2 ^ 32.

(** ** Outcome of an operation that may hit a fatal path *)

(** The header has no error values: an operation either completes, or runs
    into [llvm_unreachable] / a failed precondition ([Fatal], with the
    message of the source), or indexes a vector out of its bounds
    ([Undefined]). *)
Inductive outcome (A : Type) : Type :=
  | Done (a : A)
  | Fatal (msg : string)
  | Undefined.
Arguments Done {A} a.
Arguments Fatal {A} msg.
Arguments Undefined {A}.

Definition completes {A} (o : outcome A) : bool :=
  match o with Done _ => true | _ => false end.

Definition is_fatal {A} (o : outcome A) : bool :=
  match o with Fatal _ => true | _ => false end.

(** ** [AllocationTable<T>] *)

Section AllocationTable.
Context {T : Type} `{Countable T}.

(** [indexMap_] is the [DenseMap<T, unsigned>], [elements_] the
    [SmallVector<T, 8>].  An id is the map's own entry count at the time of
    the call and no arithmetic is done on it, so ids are natural numbers. *)
Record AllocationTable : Type := mkAllocationTable {
  indexMap_ : gmap T nat;
  elements_ : list T
}.

(** The default member initialisers: both containers empty. *)
Definition emptyTable : AllocationTable :=
  {| indexMap_ := ∅; elements_ := [] |}.

(** [unsigned allocate(T val)]: the returned id and the table after the call. *)
Definition allocate (val : T) (tbl : AllocationTable) : nat * AllocationTable :=
  match indexMap_ tbl !! val with
  | Some id => (id, tbl)
  | None =>
      let nextId := size (indexMap_ tbl) in
      (nextId,
       {| indexMap_ := <[val := nextId]> (indexMap_ tbl);
          elements_ := elements_ tbl ++ [val] |})
  end.

(** [getElements()]. *)
Definition getElements (tbl : AllocationTable) : list T := elements_ tbl.

(** A sequence of [allocate] calls, in order: the ids returned and the
    final table. *)
Fixpoint allocateAll (vals : list T) (tbl : AllocationTable)
  : list nat * AllocationTable :=
  match vals with
  | [] => ([], tbl)
  | v :: vs =>
      let '(id, tbl1) := allocate v tbl in
      let '(ids, tbl2) := allocateAll vs tbl1 in
      (id :: ids, tbl2)
  end.

(** The distinct values of [vals] in order of first occurrence, after the
    values [seen] so far. *)
Definition firstOccurrences (seen vals : list T) : list T :=
  foldl (λ acc v, if decide (v ∈ acc) then acc else acc ++ [v]) seen vals.

(** The map and the vector describe the same bijection. *)
Definition table_consistent (tbl : AllocationTable) : Prop :=
  size (indexMap_ tbl) = length (elements_ tbl) ∧
  ∀ v i, indexMap_ tbl !! v = Some i ↔ elements_ tbl !! i = Some v.

End AllocationTable.

Arguments AllocationTable T {_ _}.

(** ** [BytecodeFunctionGenerator] *)

Module FunctionGen.
Section Generator.
(** Types declared in headers other than this one. *)
Context {HBCExceptionHandlerInfo DebugSourceLocation Identifier : Type}.

(** The data members.  [opcodes_] is the opcode stream inherited from
    [BytecodeInstructionGenerator], a vector of [opcode_atom_t] bytes.  The
    back-reference [BMGen_] is left out: none of the members below reads it. *)
Record BytecodeFunctionGenerator : Type := mkGenerator {
  opcodes_ : list Z;
  exceptionHandlers_ : list HBCExceptionHandlerInfo;
  frameSize_ : Z;
  sourceLocation_ : DebugSourceLocation;
  debugLocations_ : list DebugSourceLocation;
  debugVariableNames_ : list Identifier;
  lexicalParentID_ : option Z;
  lazyFunctions_ : bool;
  bytecodeSize_ : Z;
  highestReadCacheIndex_ : Z;
  highestWriteCacheIndex_ : Z;
  jumpTable_ : list Z
}.

(** [create(BMGen, frameSize)]: every member at its default initialiser but
    [frameSize_]; [noLocation] is the default-constructed source location. *)
Definition create (noLocation : DebugSourceLocation) (frameSize : Z)
  : BytecodeFunctionGenerator :=
  {| opcodes_ := [];
     exceptionHandlers_ := [];
     frameSize_ := to_uint32 frameSize;
     sourceLocation_ := noLocation;
     debugLocations_ := [];
     debugVariableNames_ := [];
     lexicalParentID_ := None;
     lazyFunctions_ := false;
     bytecodeSize_ := 0;
     highestReadCacheIndex_ := 0;
     highestWriteCacheIndex_ := 0;
     jumpTable_ := [] |}.

(** Assignment to one member, the others kept. *)
Definition with_opcodes (ops : list Z) (g : BytecodeFunctionGenerator)
  : BytecodeFunctionGenerator :=
  {| opcodes_ := ops;
     exceptionHandlers_ := exceptionHandlers_ g;
     frameSize_ := frameSize_ g;
     sourceLocation_ := sourceLocation_ g;
     debugLocations_ := debugLocations_ g;
     debugVariableNames_ := debugVariableNames_ g;
     lexicalParentID_ := lexicalParentID_ g;
     lazyFunctions_ := lazyFunctions_ g;
     bytecodeSize_ := bytecodeSize_ g;
     highestReadCacheIndex_ := highestReadCacheIndex_ g;
     highestWriteCacheIndex_ := highestWriteCacheIndex_ g;
     jumpTable_ := jumpTable_ g |}.

Definition with_bytecodeSize (sz : Z) (g : BytecodeFunctionGenerator)
  : BytecodeFunctionGenerator :=
  {| opcodes_ := opcodes_ g;
     exceptionHandlers_ := exceptionHandlers_ g;
     frameSize_ := frameSize_ g;
     sourceLocation_ := sourceLocation_ g;
     debugLocations_ := debugLocations_ g;
     debugVariableNames_ := debugVariableNames_ g;
     lexicalParentID_ := lexicalParentID_ g;
     lazyFunctions_ := lazyFunctions_ g;
     bytecodeSize_ := sz;
     highestReadCacheIndex_ := highestReadCacheIndex_ g;
     highestWriteCacheIndex_ := highestWriteCacheIndex_ g;
     jumpTable_ := jumpTable_ g |}.

Definition with_highestReadCacheIndex (i : Z) (g : BytecodeFunctionGenerator)
  : BytecodeFunctionGenerator :=
  {| opcodes_ := opcodes_ g;
     exceptionHandlers_ := exceptionHandlers_ g;
     frameSize_ := frameSize_ g;
     sourceLocation_ := sourceLocation_ g;
     debugLocations_ := debugLocations_ g;
     debugVariableNames_ := debugVariableNames_ g;
     lexicalParentID_ := lexicalParentID_ g;
     lazyFunctions_ := lazyFunctions_ g;
     bytecodeSize_ := bytecodeSize_ g;
     highestReadCacheIndex_ := i;
     highestWriteCacheIndex_ := highestWriteCacheIndex_ g;
     jumpTable_ := jumpTable_ g |}.

Definition with_highestWriteCacheIndex (i : Z) (g : BytecodeFunctionGenerator)
  : BytecodeFunctionGenerator :=
  {| opcodes_ := opcodes_ g;
     exceptionHandlers_ := exceptionHandlers_ g;
     frameSize_ := frameSize_ g;
     sourceLocation_ := sourceLocation_ g;
     debugLocations_ := debugLocations_ g;
     debugVariableNames_ := debugVariableNames_ g;
     lexicalParentID_ := lexicalParentID_ g;
     lazyFunctions_ := lazyFunctions_ g;
     bytecodeSize_ := bytecodeSize_ g;
     highestReadCacheIndex_ := highestReadCacheIndex_ g;
     highestWriteCacheIndex_ := i;
     jumpTable_ := jumpTable_ g |}.

(** The [DEFINE_JUMP_LONG_VARIANT(shortName, longName)] entries of
    [BytecodeList.def], in the order of the file, each as the pair
    [(shortName##Op, longName##Op)] of opcode bytes.  The list itself is in
    a header that is not part of this one, so it is a parameter. *)
Context (jumpLongVariants : list (Z * Z)).

(** The [case] labels of the switch in [longToShortJump], tried in order:
    the short opcode of the first entry whose long opcode is [op]. *)
Fixpoint shortVariant (table : list (Z * Z)) (op : Z) : option Z :=
  match table with
  | [] => None
  | (shortOp, longOp) :: rest =>
      if decide (op = longOp) then Some shortOp else shortVariant rest op
  end.

(** [op] is the long opcode of some entry. *)
Definition isLongJump (op : Z) : bool :=
  bool_decide (is_Some (shortVariant jumpLongVariants op)).

(** [longToShortJump(loc)].  [opcodes_[loc]] outside the vector is
    undefined behaviour; the [default] label is [llvm_unreachable]. *)
Definition longToShortJump (loc : nat) (g : BytecodeFunctionGenerator)
  : outcome BytecodeFunctionGenerator :=
  match opcodes_ g !! loc with
  | None => Undefined
  | Some op =>
      match shortVariant jumpLongVariants op with
      | Some shortOp => Done (with_opcodes (<[loc := shortOp]> (opcodes_ g)) g)
      | None => Fatal "Unknown jump opcode"
      end
  end.

(** [getFrameSize()]. *)
Definition getFrameSize (g : BytecodeFunctionGenerator) : Z := frameSize_ g.

(** [setHighestReadCacheIndex(uint8_t sz)] and
    [setHighestWriteCacheIndex(uint8_t sz)]: the argument is converted to the
    parameter's type [uint8_t] and stored. *)
Definition setHighestReadCacheIndex (sz : Z) (g : BytecodeFunctionGenerator)
  : BytecodeFunctionGenerator :=
  with_highestReadCacheIndex (to_uint8 sz) g.

Definition setHighestWriteCacheIndex (sz : Z) (g : BytecodeFunctionGenerator)
  : BytecodeFunctionGenerator :=
  with_highestWriteCacheIndex (to_uint8 sz) g.

(** [bytecodeGenerationComplete()]: [bytecodeSize_ = opcodes_.size()], the
    [size_t] length stored in a [uint32_t] member. *)
Definition bytecodeGenerationComplete (g : BytecodeFunctionGenerator)
  : BytecodeFunctionGenerator :=
  with_bytecodeSize (to_uint32 (Z.of_nat (length (opcodes_ g)))) g.

(** [hasDebugInfo()]. *)
Definition hasDebugInfo (g : BytecodeFunctionGenerator) : bool :=
  negb (match debugLocations_ g with [] => true | _ => false end) ||
  negb (match debugVariableNames_ g with [] => true | _ => false end).

(** Assignment to one more member each, the others kept. *)
Definition with_sourceLocation (location : DebugSourceLocation)
    (g : BytecodeFunctionGenerator) : BytecodeFunctionGenerator :=
  {| opcodes_ := opcodes_ g;
     exceptionHandlers_ := exceptionHandlers_ g;
     frameSize_ := frameSize_ g;
     sourceLocation_ := location;
     debugLocations_ := debugLocations_ g;
     debugVariableNames_ := debugVariableNames_ g;
     lexicalParentID_ := lexicalParentID_ g;
     lazyFunctions_ := lazyFunctions_ g;
     bytecodeSize_ := bytecodeSize_ g;
     highestReadCacheIndex_ := highestReadCacheIndex_ g;
     highestWriteCacheIndex_ := highestWriteCacheIndex_ g;
     jumpTable_ := jumpTable_ g |}.

Definition with_debugVariableNames (names : list Identifier)
    (g : BytecodeFunctionGenerator) : BytecodeFunctionGenerator :=
  {| opcodes_ := opcodes_ g;
     exceptionHandlers_ := exceptionHandlers_ g;
     frameSize_ := frameSize_ g;
     sourceLocation_ := sourceLocation_ g;
     debugLocations_ := debugLocations_ g;
     debugVariableNames_ := names;
     lexicalParentID_ := lexicalParentID_ g;
     lazyFunctions_ := lazyFunctions_ g;
     bytecodeSize_ := bytecodeSize_ g;
     highestReadCacheIndex_ := highestReadCacheIndex_ g;
     highestWriteCacheIndex_ := highestWriteCacheIndex_ g;
     jumpTable_ := jumpTable_ g |}.

Definition with_lexicalParentID (parentID : option Z)
    (g : BytecodeFunctionGenerator) : BytecodeFunctionGenerator :=
  {| opcodes_ := opcodes_ g;
     exceptionHandlers_ := exceptionHandlers_ g;
     frameSize_ := frameSize_ g;
     sourceLocation_ := sourceLocation_ g;
     debugLocations_ := debugLocations_ g;
     debugVariableNames_ := debugVariableNames_ g;
     lexicalParentID_ := parentID;
     lazyFunctions_ := lazyFunctions_ g;
     bytecodeSize_ := bytecodeSize_ g;
     highestReadCacheIndex_ := highestReadCacheIndex_ g;
     highestWriteCacheIndex_ := highestWriteCacheIndex_ g;
     jumpTable_ := jumpTable_ g |}.

(** [setSourceLocation(location)] and [getSourceLocation()]. *)
Definition setSourceLocation (location : DebugSourceLocation)
    (g : BytecodeFunctionGenerator) : BytecodeFunctionGenerator :=
  with_sourceLocation location g.

Definition getSourceLocation (g : BytecodeFunctionGenerator)
  : DebugSourceLocation := sourceLocation_ g.

(** [getDebugLocations()]. *)
Definition getDebugLocations (g : BytecodeFunctionGenerator)
  : list DebugSourceLocation := debugLocations_ g.

(** [setDebugVariableNames(names)] and [getDebugVariableNames()]. *)
Definition setDebugVariableNames (names : list Identifier)
    (g : BytecodeFunctionGenerator) : BytecodeFunctionGenerator :=
  with_debugVariableNames names g.

Definition getDebugVariableNames (g : BytecodeFunctionGenerator)
  : list Identifier := debugVariableNames_ g.

(** [setLexicalParentID(OptValue<uint32_t> parentID)] and
    [getLexicalParentID()]: an id, when there is one, is a [uint32_t]. *)
Definition setLexicalParentID (parentID : option Z)
    (g : BytecodeFunctionGenerator) : BytecodeFunctionGenerator :=
  with_lexicalParentID (to_uint32 <$> parentID) g.

Definition getLexicalParentID (g : BytecodeFunctionGenerator) : option Z :=
  lexicalParentID_ g.

End Generator.

Arguments BytecodeFunctionGenerator : clear implicits.

End FunctionGen.

(** ** [BytecodeModuleGenerator] *)

(** Conversion of an integer value to [int]. *)
Definition to_int (z : Z) : Z := (z + 2 ^ 31) mod 2 ^ 32 - 2 ^ 31.

Module ModuleGen.
Section Generator.
(** Types declared in headers other than this one. *)
Context {HBCExceptionHandlerInfo DebugSourceLocation Identifier : Type}.
Context {UniquingStringTable UniquingRegExpTable : Type}.
Context {BytecodeGenerationOptions BytecodeModule Literal : Type}.
(** [Function *]: the identity of a function of the IR. *)
Context {Function : Type} `{Countable Function}.

Local Abbreviation FunctionGenerator :=
  (FunctionGen.BytecodeFunctionGenerator
     HBCExceptionHandlerInfo DebugSourceLocation Identifier).

(** The data members.  [literalGenerator_] holds no data of its own that
    the members below read; its serializer is the parameter
    [serializeLiterals] further down. *)
Record BytecodeModuleGenerator : Type := mkGenerator {
  functionIDMap_ : AllocationTable Function;
  functionGenerators_ : gmap Function FunctionGenerator;
  stringTable_ : UniquingStringTable;
  regExpTable_ : UniquingRegExpTable;
  filenameTable_ : UniquingStringTable;
  cjsModules_ : list (Z * Z);
  cjsModulesStatic_ : list Z;
  identifiers_ : gset nat;
  arrayBuffer_ : list Z;
  objKeyBuffer_ : list Z;
  objValBuffer_ : list Z;
  options_ : BytecodeGenerationOptions;
  lazyFunctions_ : bool;
  valid_ : bool;
  entryPointIndex_ : Z
}.

(** The constructor and the default member initialisers: [valid_{true}],
    [entryPointIndex_{-1}], empty tables and buffers.  [noStrings] and
    [noRegExps] are the default-constructed tables. *)
Definition newGenerator (noStrings : UniquingStringTable)
    (noRegExps : UniquingRegExpTable) (options : BytecodeGenerationOptions)
  : BytecodeModuleGenerator :=
  {| functionIDMap_ := emptyTable;
     functionGenerators_ := ∅;
     stringTable_ := noStrings;
     regExpTable_ := noRegExps;
     filenameTable_ := noStrings;
     cjsModules_ := [];
     cjsModulesStatic_ := [];
     identifiers_ := ∅;
     arrayBuffer_ := [];
     objKeyBuffer_ := [];
     objValBuffer_ := [];
     options_ := options;
     lazyFunctions_ := false;
     valid_ := true;
     entryPointIndex_ := -1 |}.

(** Assignment to one member, the others kept. *)
Definition with_entryPointIndex (i : Z) (m : BytecodeModuleGenerator)
  : BytecodeModuleGenerator :=
  {| functionIDMap_ := functionIDMap_ m;
     functionGenerators_ := functionGenerators_ m;
     stringTable_ := stringTable_ m;
     regExpTable_ := regExpTable_ m;
     filenameTable_ := filenameTable_ m;
     cjsModules_ := cjsModules_ m;
     cjsModulesStatic_ := cjsModulesStatic_ m;
     identifiers_ := identifiers_ m;
     arrayBuffer_ := arrayBuffer_ m;
     objKeyBuffer_ := objKeyBuffer_ m;
     objValBuffer_ := objValBuffer_ m;
     options_ := options_ m;
     lazyFunctions_ := lazyFunctions_ m;
     valid_ := valid_ m;
     entryPointIndex_ := i |}.

Definition with_valid (b : bool) (m : BytecodeModuleGenerator)
  : BytecodeModuleGenerator :=
  {| functionIDMap_ := functionIDMap_ m;
     functionGenerators_ := functionGenerators_ m;
     stringTable_ := stringTable_ m;
     regExpTable_ := regExpTable_ m;
     filenameTable_ := filenameTable_ m;
     cjsModules_ := cjsModules_ m;
     cjsModulesStatic_ := cjsModulesStatic_ m;
     identifiers_ := identifiers_ m;
     arrayBuffer_ := arrayBuffer_ m;
     objKeyBuffer_ := objKeyBuffer_ m;
     objValBuffer_ := objValBuffer_ m;
     options_ := options_ m;
     lazyFunctions_ := lazyFunctions_ m;
     valid_ := b;
     entryPointIndex_ := entryPointIndex_ m |}.

Definition with_functionIDMap (t : AllocationTable Function)
    (m : BytecodeModuleGenerator) : BytecodeModuleGenerator :=
  {| functionIDMap_ := t;
     functionGenerators_ := functionGenerators_ m;
     stringTable_ := stringTable_ m;
     regExpTable_ := regExpTable_ m;
     filenameTable_ := filenameTable_ m;
     cjsModules_ := cjsModules_ m;
     cjsModulesStatic_ := cjsModulesStatic_ m;
     identifiers_ := identifiers_ m;
     arrayBuffer_ := arrayBuffer_ m;
     objKeyBuffer_ := objKeyBuffer_ m;
     objValBuffer_ := objValBuffer_ m;
     options_ := options_ m;
     lazyFunctions_ := lazyFunctions_ m;
     valid_ := valid_ m;
     entryPointIndex_ := entryPointIndex_ m |}.

(** [getEntryPointIndex()] and [setEntryPointIndex(int index)]. *)
Definition getEntryPointIndex (m : BytecodeModuleGenerator) : Z :=
  entryPointIndex_ m.

Definition setEntryPointIndex (index : Z) (m : BytecodeModuleGenerator)
  : BytecodeModuleGenerator :=
  with_entryPointIndex (to_int index) m.

(** Modelled from the spec: the body of [addFunction], which this header
    only declares ("Add a function to functionIDMap_ if not already exist.
    Returns the ID."): the function's id in the internal allocation table. *)
Definition addFunction (F : Function) (m : BytecodeModuleGenerator)
  : nat * BytecodeModuleGenerator :=
  let '(id, t) := allocate F (functionIDMap_ m) in
  (id, with_functionIDMap t m).

(** The external literal serializer: the tagged bytes of a literal
    sequence, for the key buffer or not. *)
Context (serializeLiterals : list Literal → bool → list Z).

(** [pat] occurs in [buff] at offset [off]. *)
Definition occurs_at (buff pat : list Z) (off : nat) : Prop :=
  ∃ before after, buff = before ++ pat ++ after ∧ length before = off.

(** Modelled from the spec: what the spec and the note of the header say
    of the exact byte-pattern search that [serializeBuffer] runs over the
    whole buffer, whose code is not in this header: when the pattern occurs
    in the buffer the search returns an offset at which it occurs, and it
    finds nothing only when the pattern occurs nowhere.  Which occurrence
    is returned when there are several is not said. *)
Definition exactSearch (searchBytes : list Z → list Z → option nat) : Prop :=
  ∀ buff pat,
    match searchBytes buff pat with
    | Some off => occurs_at buff pat off
    | None => ∀ off, ¬ occurs_at buff pat off
    end.

(** The search that [serializeBuffer] runs: a parameter, for which the
    properties below assume [exactSearch] and nothing else. *)
Context (searchBytes : list Z → list Z → option nat).

(** Modelled from the spec: the body of [serializeBuffer], which this
    header only declares: the literals are encoded, the encoded bytes are
    searched for in the whole of [buff], and are appended only when they do
    not occur in it.  The result is the offset, as the [uint32_t] that the
    declaration returns, and [buff] after the call. *)
Definition serializeBuffer (literals : list Literal) (buff : list Z)
    (isKeyBuffer : bool) : Z * list Z :=
  let tmpBuff := serializeLiterals literals isKeyBuffer in
  match searchBytes buff tmpBuff with
  | Some off => (to_uint32 (Z.of_nat off), buff)
  | None => (to_uint32 (Z.of_nat (length buff)), buff ++ tmpBuff)
  end.

(** Modelled from the spec: "a valid registered function id" of
    [generate()], whose code is not in this header, read as an index into
    the function id table. *)
Definition isRegisteredFunctionID (m : BytecodeModuleGenerator) (i : Z) : bool :=
  bool_decide (0 ≤ i < Z.of_nat (length (getElements (functionIDMap_ m)))).

(** The assembly of the module from the tables, and what it leaves of the
    tables: both are outside this header. *)
Context (assembleModule : BytecodeModuleGenerator → BytecodeModule).
Context (consumeTables : BytecodeModuleGenerator → BytecodeModuleGenerator).

(** Modelled from the spec: the body of [generate()], which this header
    only declares: a generator that is no longer valid, or whose entry
    point is not a registered function id, fails; otherwise the module is
    assembled and the generator is left invalid. *)
Definition generate (m : BytecodeModuleGenerator)
  : outcome (BytecodeModule * BytecodeModuleGenerator) :=
  if negb (valid_ m) then
    Fatal "generate() cannot be called more than once"
  else if negb (isRegisteredFunctionID m (entryPointIndex_ m)) then
    Fatal "entry point index is not a registered function"
  else Done (assembleModule m, with_valid false (consumeTables m)).

End Generator.

Arguments BytecodeModuleGenerator : clear implicits.
Arguments BytecodeModuleGenerator _ _ _ _ _ _ Function {_ _}.

End ModuleGen.

(** A sample serializer to run [serializeBuffer] on: one tag byte that
    holds the number of literals, then one byte per literal.  It is not the
    format of [SerializedLiteralGenerator], which is outside this header. *)
Definition countTagged (literals : list Z) (isKeyBuffer : bool) : list Z :=
  Z.of_nat (length literals) :: literals.

(** A sample search to run [serializeBuffer] on: from left to right, the
    offset of the first place of [buff] at which [pat] occurs.  It is one
    of the searches that [exactSearch] admits. *)
Fixpoint firstOccurrence (buff pat : list Z) : option nat :=
  if decide (pat `prefix_of` buff) then Some 0%nat
  else match buff with
       | [] => None
       | _ :: rest => S <$> firstOccurrence rest pat
       end.

(** * Properties *)

(** ** The allocation table *)

Section AllocationTable_facts.
Context {T : Type} `{Countable T}.
Implicit Types (tbl : AllocationTable T) (v : T) (vals : list T).

Lemma emptyTable_consistent : table_consistent (emptyTable (T:=T)).
Proof.
  split; [done|]. intros v i; simpl.
  rewrite lookup_empty, lookup_nil. done.
Qed.

Lemma consistent_elem tbl v :
  table_consistent tbl → v ∈ elements_ tbl ↔ is_Some (indexMap_ tbl !! v).
Proof.
  intros [_ Hbij]. rewrite list_elem_of_lookup. split.
  - intros [i Hi]. exists i. by apply Hbij.
  - intros [i Hi]. exists i. by apply Hbij.
Qed.

Lemma consistent_NoDup tbl : table_consistent tbl → NoDup (elements_ tbl).
Proof.
  intros [_ Hbij]. apply NoDup_alt. intros i j v Hi Hj.
  apply Hbij in Hi, Hj. congruence.
Qed.

(** A value already in the table: its id comes back, the table is the same. *)
Lemma allocate_known tbl v :
  table_consistent tbl → v ∈ elements_ tbl →
  ∃ id, allocate v tbl = (id, tbl) ∧ elements_ tbl !! id = Some v.
Proof.
  intros Hc Hin. pose proof Hc as [_ Hbij].
  apply (consistent_elem _ _ Hc) in Hin as [id Hid].
  exists id. unfold allocate. rewrite Hid. split; [done|]. by apply Hbij.
Qed.

(** A new value: its id is the number of elements, and it is pushed back. *)
Lemma allocate_fresh tbl v :
  table_consistent tbl → v ∉ elements_ tbl →
  ∃ tbl', allocate v tbl = (length (elements_ tbl), tbl') ∧
          elements_ tbl' = elements_ tbl ++ [v].
Proof.
  intros Hc Hnin. pose proof Hc as [Hsz _].
  rewrite (consistent_elem _ _ Hc), <- eq_None_not_Some in Hnin.
  unfold allocate. rewrite Hnin, Hsz. eauto.
Qed.

Lemma allocate_consistent v tbl :
  table_consistent tbl → table_consistent (allocate v tbl).2.
Proof.
  intros Hc. pose proof Hc as [Hsz Hbij]. unfold allocate.
  destruct (indexMap_ tbl !! v) as [id|] eqn:Hv; simpl; [done|].
  split; simpl.
  - rewrite map_size_insert_None by done. rewrite length_app. simpl. lia.
  - intros w i. destruct (decide (v = w)) as [->|Hne].
    + rewrite lookup_insert_eq. split.
      * intros [= <-]. rewrite Hsz.
        rewrite lookup_app_r by lia. by rewrite Nat.sub_diag.
      * intros Hi. f_equal.
        destruct (decide (i < length (elements_ tbl))%nat) as [Hlt|Hge].
        -- rewrite lookup_app_l in Hi by done.
           apply Hbij in Hi. congruence.
        -- apply lookup_lt_Some in Hi. rewrite length_app in Hi.
           simpl in Hi. lia.
    + rewrite lookup_insert_ne by done. rewrite Hbij. split.
      * intros Hi. rewrite lookup_app_l; [done|]. by eapply lookup_lt_Some.
      * intros Hi.
        destruct (decide (i < length (elements_ tbl))%nat) as [Hlt|Hge].
        -- by rewrite lookup_app_l in Hi.
        -- rewrite lookup_app_r in Hi by lia.
           apply list_lookup_singleton_Some in Hi as [_ ?]. congruence.
Qed.

(** One call in terms of the element vector alone. *)
Lemma allocate_elements tbl v :
  table_consistent tbl →
  elements_ (allocate v tbl).2 =
    if decide (v ∈ elements_ tbl) then elements_ tbl else elements_ tbl ++ [v].
Proof.
  intros Hc. case_decide as Hin.
  - destruct (allocate_known _ _ Hc Hin) as (id & -> & _). done.
  - destruct (allocate_fresh _ _ Hc Hin) as (tbl' & -> & Hel). done.
Qed.

Lemma allocate_returns tbl v :
  table_consistent tbl →
  elements_ (allocate v tbl).2 !! (allocate v tbl).1 = Some v.
Proof.
  intros Hc. destruct (decide (v ∈ elements_ tbl)) as [Hin|Hnin].
  - destruct (allocate_known _ _ Hc Hin) as (id & -> & ?). done.
  - destruct (allocate_fresh _ _ Hc Hnin) as (tbl' & -> & Hel). simpl.
    rewrite Hel, lookup_app_r by lia. by rewrite Nat.sub_diag.
Qed.

Lemma allocate_grows tbl v :
  table_consistent tbl → elements_ tbl `prefix_of` elements_ (allocate v tbl).2.
Proof.
  intros Hc. rewrite allocate_elements by done.
  case_decide; [done|]. by apply prefix_app_r.
Qed.

Lemma allocateAll_consistent vals tbl :
  table_consistent tbl → table_consistent (allocateAll vals tbl).2.
Proof.
  revert tbl. induction vals as [|v vs IH]; intros tbl Hc; simpl; [done|].
  pose proof (allocate_consistent v tbl Hc) as Hc1.
  destruct (allocate v tbl) as [id tbl1]. simpl in Hc1.
  specialize (IH tbl1 Hc1). destruct (allocateAll vs tbl1). done.
Qed.

Lemma allocateAll_grows vals tbl :
  table_consistent tbl →
  elements_ tbl `prefix_of` elements_ (allocateAll vals tbl).2.
Proof.
  revert tbl. induction vals as [|v vs IH]; intros tbl Hc; simpl; [done|].
  pose proof (allocate_consistent v tbl Hc) as Hc1.
  pose proof (allocate_grows tbl v Hc) as Hg.
  destruct (allocate v tbl) as [id tbl1]. simpl in *.
  specialize (IH tbl1 Hc1). destruct (allocateAll vs tbl1). simpl in *.
  by etrans.
Qed.

Lemma allocateAll_length vals tbl :
  length (allocateAll vals tbl).1 = length vals.
Proof.
  revert tbl. induction vals as [|v vs IH]; intros tbl; simpl; [done|].
  destruct (allocate v tbl) as [id tbl1].
  specialize (IH tbl1). destruct (allocateAll vs tbl1). simpl in *. lia.
Qed.

Lemma allocateAll_elements vals tbl :
  table_consistent tbl →
  elements_ (allocateAll vals tbl).2 = firstOccurrences (elements_ tbl) vals.
Proof.
  revert tbl. induction vals as [|v vs IH]; intros tbl Hc; simpl; [done|].
  pose proof (allocate_consistent v tbl Hc) as Hc1.
  pose proof (allocate_elements tbl v Hc) as He.
  destruct (allocate v tbl) as [id tbl1]. simpl in *.
  specialize (IH tbl1 Hc1). destruct (allocateAll vs tbl1). simpl in *.
  rewrite IH, He. done.
Qed.

(** The element stored under a returned id is the value of that call. *)
Lemma allocateAll_lookup vals tbl i v id :
  table_consistent tbl →
  vals !! i = Some v → (allocateAll vals tbl).1 !! i = Some id →
  elements_ (allocateAll vals tbl).2 !! id = Some v.
Proof.
  revert tbl i. induction vals as [|w vs IH]; intros tbl i Hc Hv Hid; [done|].
  simpl in *.
  pose proof (allocate_consistent w tbl Hc) as Hc1.
  pose proof (allocate_returns tbl w Hc) as Hr.
  destruct (allocate w tbl) as [id1 tbl1]. simpl in *.
  pose proof (allocateAll_grows vs tbl1 Hc1) as Hg.
  specialize (IH tbl1). destruct (allocateAll vs tbl1) as [ids tbl2].
  simpl in *. destruct i as [|i]; simpl in *.
  - simplify_eq. by eapply prefix_lookup_Some.
  - by eapply IH.
Qed.

(** The ids returned are exactly the indices the calls added or hit. *)
Lemma allocateAll_ids_bound vals tbl id :
  table_consistent tbl → id ∈ (allocateAll vals tbl).1 →
  (id < length (elements_ (allocateAll vals tbl).2))%nat.
Proof.
  intros Hc [i Hi]%list_elem_of_lookup.
  destruct (vals !! i) as [v|] eqn:Hv.
  - eapply lookup_lt_Some, allocateAll_lookup; eauto.
  - apply lookup_ge_None in Hv. apply lookup_lt_Some in Hi.
    rewrite allocateAll_length in Hi. lia.
Qed.

Lemma allocateAll_ids_cover vals tbl id :
  table_consistent tbl →
  (length (elements_ tbl) ≤ id < length (elements_ (allocateAll vals tbl).2))%nat →
  id ∈ (allocateAll vals tbl).1.
Proof.
  revert tbl. induction vals as [|w vs IH]; intros tbl Hc Hid; simpl in *; [lia|].
  pose proof (allocate_consistent w tbl Hc) as Hc1.
  pose proof (allocate_elements tbl w Hc) as He.
  destruct (decide (w ∈ elements_ tbl)) as [Hin|Hnin].
  - destruct (allocate_known _ _ Hc Hin) as (id1 & Hal & _).
    rewrite Hal in *. simpl in *. specialize (IH tbl Hc).
    destruct (allocateAll vs tbl) as [ids tbl2]. simpl in *.
    apply list_elem_of_further. by apply IH.
  - destruct (allocate_fresh _ _ Hc Hnin) as (tbl1 & Hal & Hel).
    rewrite Hal in *. simpl in *. specialize (IH tbl1 Hc1).
    destruct (allocateAll vs tbl1) as [ids tbl2]. simpl in *.
    destruct (decide (id = length (elements_ tbl))) as [->|Hne].
    + apply list_elem_of_here.
    + apply list_elem_of_further, IH. rewrite Hel, length_app. simpl. lia.
Qed.

(** C4.  For every sequence [vals] of [allocate] calls on a new table, with
    [ids] the ids returned and [tbl] the table afterwards: one id per call;
    [getElements()] holds the distinct values in order of first allocation,
    without repetition; [getElements()[id]] is the value of the call that
    returned [id]; two calls return the same id exactly when their values
    are equal; the ids are exactly [0 .. n-1] for [n] the number of
    elements; and on [tbl] a further [allocate] of a value already there
    returns the id every earlier call gave that value, the index it is
    stored at, and leaves the table as it is, while a new value gets the
    current count as its id and is pushed back. *)
Theorem allocate_sequence_spec (vals : list T) :
  let ids := (allocateAll vals emptyTable).1 in
  let tbl := (allocateAll vals emptyTable).2 in
  length ids = length vals ∧
  getElements tbl = firstOccurrences [] vals ∧
  NoDup (getElements tbl) ∧
  (∀ i v id, vals !! i = Some v → ids !! i = Some id →
             getElements tbl !! id = Some v) ∧
  (∀ i j v w id1 id2,
     vals !! i = Some v → vals !! j = Some w →
     ids !! i = Some id1 → ids !! j = Some id2 → v = w ↔ id1 = id2) ∧
  (∀ id, id ∈ ids ↔ (id < length (getElements tbl))%nat) ∧
  (∀ v, v ∈ getElements tbl →
        ∃ id, allocate v tbl = (id, tbl) ∧ getElements tbl !! id = Some v ∧
              ∀ i, vals !! i = Some v → ids !! i = Some id) ∧
  (∀ v, v ∉ getElements tbl →
        ∃ tbl', allocate v tbl = (length (getElements tbl), tbl') ∧
                getElements tbl' = getElements tbl ++ [v]).
Proof.
  intros ids tbl. unfold getElements.
  pose proof emptyTable_consistent as Hc0.
  pose proof (allocateAll_consistent vals _ Hc0) as Hc. fold tbl in Hc.
  assert (Hlk : ∀ i v id, vals !! i = Some v → ids !! i = Some id →
                          elements_ tbl !! id = Some v).
  { intros i v id Hv Hid. by eapply allocateAll_lookup. }
  pose proof (consistent_NoDup _ Hc) as Hnd.
  split_and!.
  - apply allocateAll_length.
  - by apply allocateAll_elements.
  - done.
  - done.
  - intros i j v w id1 id2 Hv Hw Hi Hj.
    pose proof (Hlk _ _ _ Hv Hi) as H1. pose proof (Hlk _ _ _ Hw Hj) as H2.
    split.
    + intros ->. by eapply NoDup_lookup.
    + intros ->. congruence.
  - intros id. split.
    + by apply allocateAll_ids_bound.
    + intros Hlt. apply allocateAll_ids_cover; [done|]. simpl.
      fold tbl. lia.
  - intros v Hin. destruct (allocate_known _ _ Hc Hin) as (id & Hal & Hid).
    exists id. split_and!; [done|done|]. intros i Hv.
    destruct (ids !! i) as [id'|] eqn:Hi.
    + f_equal. eapply NoDup_lookup; eauto.
    + apply lookup_ge_None in Hi. apply lookup_lt_Some in Hv.
      unfold ids in Hi. rewrite allocateAll_length in Hi. lia.
  - intros v Hnin. by apply allocate_fresh.
Qed.

End AllocationTable_facts.

(** Four calls with one repeated value. *)
Example allocateAll_5_7_5_9 :
  let r := allocateAll [5; 7; 5; 9] emptyTable in
  r.1 = [0; 1; 0; 2]%nat ∧ getElements r.2 = [5; 7; 9].
Proof. vm_compute. done. Qed.

(** ** The per-function generator *)

Section FunctionGen_facts.
Import FunctionGen.
Context {HBCExceptionHandlerInfo DebugSourceLocation Identifier : Type}.
Context (jumpLongVariants : list (Z * Z)).
Implicit Types
  g : BytecodeFunctionGenerator
        HBCExceptionHandlerInfo DebugSourceLocation Identifier.

(** The switch against the list of entries it is generated from. *)
Lemma shortVariant_Some table op shortOp :
  shortVariant table op = Some shortOp → (shortOp, op) ∈ table.
Proof.
  induction table as [|[s l] rest IH]; simpl; [done|].
  case_decide as Heq.
  - intros [= ->]. subst. apply list_elem_of_here.
  - intros Hr. apply list_elem_of_further. by apply IH.
Qed.

Lemma shortVariant_None table op :
  shortVariant table op = None ↔ ∀ shortOp, (shortOp, op) ∉ table.
Proof.
  induction table as [|[s l] rest IH]; simpl.
  - split; [|done]. intros _ shortOp Hin. by apply elem_of_nil in Hin.
  - case_decide as Heq.
    + split; [done|]. intros Hall. subst. destruct (Hall s).
      apply list_elem_of_here.
    + rewrite IH. split.
      * intros Hall shortOp [Hhd|Htl]%elem_of_cons; [congruence|].
        by apply (Hall shortOp).
      * intros Hall shortOp Hin. apply (Hall shortOp).
        by apply list_elem_of_further.
Qed.

(** Case labels are distinct, so an entry is the one the switch takes. *)
Lemma shortVariant_unique table op shortOp :
  NoDup table.*2 → (shortOp, op) ∈ table →
  shortVariant table op = Some shortOp.
Proof.
  induction table as [|[s l] rest IH]; simpl.
  - intros _ Hin. by apply elem_of_nil in Hin.
  - intros [Hnin Hnd]%NoDup_cons [Hhd|Htl]%elem_of_cons.
    + simplify_eq. by rewrite decide_True.
    + case_decide as Heq; [|by apply IH].
      subst. destruct Hnin.
      apply list_elem_of_fmap. by exists (shortOp, l).
Qed.

(** C3.  With [op] the opcode byte at [loc]: when [op] is the long opcode of
    an entry of the list of long variants, [longToShortJump(loc)] completes,
    and in the generator it leaves the byte at [loc] is that entry's short
    opcode, every other byte of the stream and every other member being as
    it was before; when [op] is the long opcode of
    no entry, the call ends in the fatal "Unknown jump opcode" path and
    never completes.  So for a long-jump opcode at [loc] the fatal path is
    not taken; and with distinct case labels the entry of a long opcode is
    the only one, so the short opcode stored is fixed by the list. *)
Theorem longToShortJump_spec g loc op :
  opcodes_ g !! loc = Some op →
  match shortVariant jumpLongVariants op with
  | Some shortOp =>
      (shortOp, op) ∈ jumpLongVariants ∧
      ∃ g', longToShortJump jumpLongVariants loc g = Done g' ∧
            opcodes_ g' !! loc = Some shortOp ∧
            (∀ j, j ≠ loc → opcodes_ g' !! j = opcodes_ g !! j) ∧
            length (opcodes_ g') = length (opcodes_ g) ∧
            exceptionHandlers_ g' = exceptionHandlers_ g ∧
            frameSize_ g' = frameSize_ g ∧
            sourceLocation_ g' = sourceLocation_ g ∧
            debugLocations_ g' = debugLocations_ g ∧
            debugVariableNames_ g' = debugVariableNames_ g ∧
            lexicalParentID_ g' = lexicalParentID_ g ∧
            lazyFunctions_ g' = lazyFunctions_ g ∧
            bytecodeSize_ g' = bytecodeSize_ g ∧
            highestReadCacheIndex_ g' = highestReadCacheIndex_ g ∧
            highestWriteCacheIndex_ g' = highestWriteCacheIndex_ g ∧
            jumpTable_ g' = jumpTable_ g
  | None =>
      (∀ shortOp, (shortOp, op) ∉ jumpLongVariants) ∧
      longToShortJump jumpLongVariants loc g = Fatal "Unknown jump opcode"
  end ∧
  (isLongJump jumpLongVariants op = true →
   completes (longToShortJump jumpLongVariants loc g) = true ∧
   is_fatal (longToShortJump jumpLongVariants loc g) = false) ∧
  (isLongJump jumpLongVariants op = false →
   is_fatal (longToShortJump jumpLongVariants loc g) = true) ∧
  (NoDup jumpLongVariants.*2 →
   ∀ shortOp, (shortOp, op) ∈ jumpLongVariants →
              shortVariant jumpLongVariants op = Some shortOp).
Proof.
  intros Hop. unfold longToShortJump, isLongJump. rewrite Hop.
  destruct (shortVariant jumpLongVariants op) as [shortOp|] eqn:Hsv.
  - split_and!.
    + by apply shortVariant_Some.
    + eexists. split; [reflexivity|]. simpl. split_and!; try done.
      * apply list_lookup_insert_eq. by eapply lookup_lt_Some.
      * intros j Hj. by apply list_lookup_insert_ne.
      * apply length_insert.
    + done.
    + intros Hf. apply bool_decide_eq_false in Hf. destruct Hf. by eexists.
    + intros Hnd s Hin. rewrite <- Hsv. by apply shortVariant_unique.
  - split_and!.
    + by apply shortVariant_None.
    + done.
    + intros Ht. apply bool_decide_eq_true in Ht. by destruct Ht.
    + done.
    + intros Hnd s Hin. by destruct (proj1 (shortVariant_None _ _) Hsv s).
Qed.

(** C10.  Whatever integer is passed, [setHighestReadCacheIndex] and
    [setHighestWriteCacheIndex] record it modulo 2^8; what is recorded lies
    between 0 and 255, 255 is recorded as 255, and 256 is recorded as 0. *)
Theorem cacheIndex_is_8_bit g (sz : Z) :
  highestReadCacheIndex_ (setHighestReadCacheIndex sz g) = sz mod 2 ^ 8 ∧
  highestWriteCacheIndex_ (setHighestWriteCacheIndex sz g) = sz mod 2 ^ 8 ∧
  0 ≤ highestReadCacheIndex_ (setHighestReadCacheIndex sz g) ≤ 255 ∧
  0 ≤ highestWriteCacheIndex_ (setHighestWriteCacheIndex sz g) ≤ 255 ∧
  highestReadCacheIndex_ (setHighestReadCacheIndex 255 g) = 255 ∧
  highestWriteCacheIndex_ (setHighestWriteCacheIndex 255 g) = 255 ∧
  highestReadCacheIndex_ (setHighestReadCacheIndex 256 g) = 0 ∧
  highestWriteCacheIndex_ (setHighestWriteCacheIndex 256 g) = 0.
Proof.
  unfold setHighestReadCacheIndex, setHighestWriteCacheIndex, to_uint8.
  simpl. pose proof (Z.mod_pos_bound sz (2 ^ 8)). split_and!; try done; lia.
Qed.

(** A stream of exactly 2^32 bytes: the size recorded is 0. *)
Lemma bytecodeSize_of_4GiB_stream g :
  Z.of_nat (length (opcodes_ g)) = 2 ^ 32 →
  bytecodeSize_ (bytecodeGenerationComplete g) = 0 ∧
  Z.of_nat (length (opcodes_ g)) = 2 ^ 32 ∧
  bytecodeSize_ (bytecodeGenerationComplete g) ≠ Z.of_nat (length (opcodes_ g)).
Proof.
  intros Hlen. unfold bytecodeGenerationComplete, to_uint32.
  cbv [bytecodeSize_ with_bytecodeSize]. rewrite Hlen.
  change (2 ^ 32 mod 2 ^ 32) with 0. split_and!; [done|done|].
  intros Heq; discriminate Heq.
Qed.

(** C9 (as amended).  [bytecodeGenerationComplete()] records the length of
    the opcode stream reduced modulo 2^32, which is the length itself for a
    stream shorter than 2^32 bytes, and leaves every other member as it was;
    nothing keeps it from being called again: whatever size was recorded
    before, and whatever the stream has become since, the call records the
    current length again. *)
Theorem bytecodeGenerationComplete_frame g :
  let g' := bytecodeGenerationComplete g in
  bytecodeSize_ g' = Z.of_nat (length (opcodes_ g)) mod 2 ^ 32 ∧
  (Z.of_nat (length (opcodes_ g)) < 2 ^ 32 →
   bytecodeSize_ g' = Z.of_nat (length (opcodes_ g))) ∧
  opcodes_ g' = opcodes_ g ∧
  exceptionHandlers_ g' = exceptionHandlers_ g ∧
  debugLocations_ g' = debugLocations_ g ∧
  jumpTable_ g' = jumpTable_ g ∧
  frameSize_ g' = frameSize_ g ∧
  highestReadCacheIndex_ g' = highestReadCacheIndex_ g ∧
  highestWriteCacheIndex_ g' = highestWriteCacheIndex_ g ∧
  sourceLocation_ g' = sourceLocation_ g ∧
  debugVariableNames_ g' = debugVariableNames_ g ∧
  lexicalParentID_ g' = lexicalParentID_ g ∧
  lazyFunctions_ g' = lazyFunctions_ g ∧
  bytecodeGenerationComplete g' = g' ∧
  (∀ ops, bytecodeSize_ (bytecodeGenerationComplete (with_opcodes ops g')) =
          Z.of_nat (length ops) mod 2 ^ 32).
Proof.
  intros g'. subst g'. unfold bytecodeGenerationComplete, to_uint32. simpl.
  split_and!; try done.
  intros Hlt. apply Z.mod_small. lia.
Qed.

End FunctionGen_facts.

(** A long jump at offset 0 of a five-byte stream, for a list of two
    entries: in the generator the call leaves, the opcode at offset 0 is
    the short one and the four operand bytes are as before. *)
Lemma longToShortJump_spec_witness :
  let table := [(10, 11); (12, 13)] in
  let g := FunctionGen.with_opcodes [13; 200; 0; 0; 0]
             (FunctionGen.create (Identifier:=unit)
                (HBCExceptionHandlerInfo:=unit) tt 1) in
  ∃ g', FunctionGen.longToShortJump table 0 g = Done g' ∧
        FunctionGen.opcodes_ g' !! 0%nat = Some 12 ∧
        FunctionGen.opcodes_ g' !! 1%nat = Some 200 ∧
        length (FunctionGen.opcodes_ g') = 5%nat ∧
        FunctionGen.frameSize_ g' = 1.
Proof.
  intros table g.
  destruct (longToShortJump_spec table g 0%nat 13 eq_refl) as [Hrew _].
  simpl in Hrew.
  destruct Hrew as (_ & g' & Hd & Hloc & Hoth & Hlen & _ & Hfs & _).
  exists g'. split_and!.
  - exact Hd.
  - exact Hloc.
  - rewrite (Hoth 1%nat); [reflexivity|discriminate].
  - rewrite Hlen. reflexivity.
  - rewrite Hfs. reflexivity.
Defined.

(** An opcode that is no long jump: the fatal path. *)
Example longToShortJump_unknown :
  let table := [(10, 11); (12, 13)] in
  let g := FunctionGen.with_opcodes [12; 200]
             (FunctionGen.create (Identifier:=unit)
                (HBCExceptionHandlerInfo:=unit) tt 1) in
  FunctionGen.longToShortJump table 0 g = Fatal "Unknown jump opcode".
Proof. reflexivity. Qed.

(** C9, the claim as stated fails: for a stream of 2^32 bytes the size
    recorded is 0, not the length of the stream. *)
Lemma bytecodeGenerationComplete_wraps :
  let g := FunctionGen.with_opcodes (replicate (Z.to_nat (2 ^ 32)) 0)
             (FunctionGen.create (Identifier:=unit)
                (HBCExceptionHandlerInfo:=unit) tt 1) in
  FunctionGen.bytecodeSize_ (FunctionGen.bytecodeGenerationComplete g) = 0 ∧
  Z.of_nat (length (FunctionGen.opcodes_ g)) = 2 ^ 32 ∧
  FunctionGen.bytecodeSize_ (FunctionGen.bytecodeGenerationComplete g) ≠
    Z.of_nat (length (FunctionGen.opcodes_ g)).
Proof.
  intros g. apply bytecodeSize_of_4GiB_stream. subst g.
  cbv [FunctionGen.opcodes_ FunctionGen.with_opcodes].
  rewrite length_replicate. apply Z2Nat.id. lia.
Qed.

(** ** The module generator: literal buffers *)

Section search_facts.
Implicit Types (buff pat : list Z) (off : nat).

Lemma occurs_at_0 buff pat :
  ModuleGen.occurs_at buff pat 0 ↔ pat `prefix_of` buff.
Proof.
  split.
  - intros (before & after & -> & Hlen).
    apply nil_length_inv in Hlen as ->. by exists after.
  - intros [after ->]. by exists [], after.
Qed.

Lemma occurs_at_S x buff pat off :
  ModuleGen.occurs_at (x :: buff) pat (S off) ↔ ModuleGen.occurs_at buff pat off.
Proof.
  split.
  - intros (before & after & Heq & Hlen).
    destruct before as [|y before]; [done|]. simplify_eq/=.
    by exists before, after.
  - intros (before & after & -> & Hlen).
    exists (x :: before), after. simpl. by rewrite Hlen.
Qed.

Lemma occurs_at_bound buff pat off :
  ModuleGen.occurs_at buff pat off → (off + length pat ≤ length buff)%nat.
Proof.
  intros (before & after & -> & <-). rewrite !length_app. lia.
Qed.


(** [firstOccurrence] returns the first offset at which the pattern occurs. *)
Lemma firstOccurrence_Some buff pat off :
  firstOccurrence buff pat = Some off →
  ModuleGen.occurs_at buff pat off ∧
  ∀ j, (j < off)%nat → ¬ ModuleGen.occurs_at buff pat j.
Proof.
  revert off. induction buff as [|x buff IH]; intros off; simpl.
  - case_decide as Hp; [|done]. intros [= <-].
    split; [by apply occurs_at_0|]. intros j Hj. lia.
  - case_decide as Hp.
    + intros [= <-]. split; [by apply occurs_at_0|]. intros j Hj. lia.
    + destruct (firstOccurrence buff pat) as [off'|] eqn:Hs; [|done].
      simpl. intros [= <-]. destruct (IH off' eq_refl) as [Hocc Hmin].
      split; [by apply occurs_at_S|].
      intros [|j] Hj.
      * by rewrite occurs_at_0.
      * rewrite occurs_at_S. apply Hmin. lia.
Qed.

Lemma firstOccurrence_None buff pat :
  firstOccurrence buff pat = None → ∀ j, ¬ ModuleGen.occurs_at buff pat j.
Proof.
  induction buff as [|x buff IH]; simpl.
  - case_decide as Hp; [done|]. intros _ j Hocc.
    pose proof (occurs_at_bound _ _ _ Hocc) as Hb. simpl in Hb.
    assert (j = 0%nat) as -> by lia. by apply occurs_at_0 in Hocc.
  - case_decide as Hp; [done|].
    destruct (firstOccurrence buff pat) as [off'|] eqn:Hs; [done|].
    intros _ [|j].
    + by rewrite occurs_at_0.
    + rewrite occurs_at_S. by apply IH.
Qed.

Lemma firstOccurrence_exact : ModuleGen.exactSearch firstOccurrence.
Proof.
  intros buff pat. destruct (firstOccurrence buff pat) as [off|] eqn:Hs.
  - by apply firstOccurrence_Some in Hs as [? _].
  - by apply firstOccurrence_None.
Qed.

End search_facts.

Section serializeBuffer_facts.
Context {Literal : Type} (serializeLiterals : list Literal → bool → list Z).
Context (searchBytes : list Z → list Z → option nat).
Implicit Types (literals : list Literal) (buff : list Z).

Local Abbreviation serialize :=
  (ModuleGen.serializeBuffer serializeLiterals searchBytes).





End serializeBuffer_facts.


(** What the search returns on a repeated call is not fixed by
    [exactSearch]: with the sample serializer and the search from the left,
    the literal [1] is appended to the buffer [2; 7; 1] at offset 3, and
    the second call finds its bytes [1; 1] at offset 2, across the place
    where the first call appended. *)
Lemma repeated_offset_depends_on_search :
  let r1 := ModuleGen.serializeBuffer countTagged firstOccurrence [1] [2; 7; 1] false in
  let r2 := ModuleGen.serializeBuffer countTagged firstOccurrence [1] r1.2 false in
  ModuleGen.exactSearch firstOccurrence ∧
  r1 = (3, [2; 7; 1; 1; 1]) ∧ r2 = (2, [2; 7; 1; 1; 1]).
Proof.
  intros r1 r2. split; [apply firstOccurrence_exact|].
  vm_compute. split; reflexivity.
Qed.


(** ** The module generator: [generate()] *)

Section generate_facts.
Import ModuleGen.
Context {HBCExceptionHandlerInfo DebugSourceLocation Identifier : Type}.
Context {UniquingStringTable UniquingRegExpTable : Type}.
Context {BytecodeGenerationOptions BytecodeModule : Type}.
Context {Function : Type} `{Countable Function}.

Local Abbreviation Generator :=
  (BytecodeModuleGenerator
     HBCExceptionHandlerInfo DebugSourceLocation Identifier
     UniquingStringTable UniquingRegExpTable BytecodeGenerationOptions
     Function).

Context (assembleModule : Generator → BytecodeModule).
Context (consumeTables : Generator → Generator).
Implicit Types m : Generator.

Lemma generate_Done m bm m' :
  generate assembleModule consumeTables m = Done (bm, m') →
  valid_ m = true ∧
  isRegisteredFunctionID m (entryPointIndex_ m) = true ∧
  bm = assembleModule m ∧ m' = with_valid false (consumeTables m).
Proof.
  unfold generate.
  destruct (valid_ m); simpl; [|done].
  destruct (isRegisteredFunctionID m (entryPointIndex_ m)); simpl; [|done].
  intros [= <- <-]. done.
Qed.

Lemma generate_invalid m :
  valid_ m = false →
  generate assembleModule consumeTables m =
    Fatal "generate() cannot be called more than once".
Proof. intros Hv. unfold generate. by rewrite Hv. Qed.

Lemma to_int_small i : - 2 ^ 31 ≤ i < 2 ^ 31 → to_int i = i.
Proof. intros Hi. unfold to_int. rewrite Z.mod_small; lia. Qed.

(** C7.  A new generator is valid.  A call of [generate()] that produces a
    module was made on a valid generator and leaves it invalid, and
    [generate()] on the generator it leaves fails instead of producing a
    module; so does [generate()] on any generator that is not valid.  On a
    valid generator whose entry point is a registered function the call
    does produce the module. *)
Theorem generate_once m noStrings noRegExps options :
  valid_ (newGenerator noStrings noRegExps options : Generator) = true ∧
  (∀ bm m',
     generate assembleModule consumeTables m = Done (bm, m') →
     valid_ m = true ∧ valid_ m' = false ∧
     generate assembleModule consumeTables m' =
       Fatal "generate() cannot be called more than once" ∧
     completes (generate assembleModule consumeTables m') = false) ∧
  (valid_ m = false →
   is_fatal (generate assembleModule consumeTables m) = true) ∧
  (valid_ m = true →
   isRegisteredFunctionID m (entryPointIndex_ m) = true →
   generate assembleModule consumeTables m =
     Done (assembleModule m, with_valid false (consumeTables m))).
Proof.
  split_and!.
  - done.
  - intros bm m' Hg. apply generate_Done in Hg as (Hv & _ & _ & ->).
    split_and!; [done|done| |].
    + by apply generate_invalid.
    + by rewrite generate_invalid.
  - intros Hv. by rewrite generate_invalid.
  - intros Hv Hreg. unfold generate. by rewrite Hv, Hreg.
Qed.

(** C8.  A new generator has entry point index -1, and -1 is no registered
    function id.  [generate()] on a generator whose entry point index is -1
    fails and produces no module; a call that produces a module was made
    with the entry point index at a registered function id.  Setting the
    index to a registered function id (below 2^31, the range of [int])
    records that id, after which [generate()] on a valid generator
    produces the module. *)
Theorem generate_requires_entryPoint m noStrings noRegExps options :
  getEntryPointIndex (newGenerator noStrings noRegExps options : Generator) = -1 ∧
  isRegisteredFunctionID m (-1) = false ∧
  (getEntryPointIndex m = -1 →
   is_fatal (generate assembleModule consumeTables m) = true ∧
   completes (generate assembleModule consumeTables m) = false) ∧
  (∀ bm m',
     generate assembleModule consumeTables m = Done (bm, m') →
     0 ≤ getEntryPointIndex m <
       Z.of_nat (length (getElements (functionIDMap_ m)))) ∧
  (∀ i, isRegisteredFunctionID m i = true → i < 2 ^ 31 →
        getEntryPointIndex (setEntryPointIndex i m) = i ∧
        (valid_ m = true →
         completes (generate assembleModule consumeTables
                      (setEntryPointIndex i m)) = true)).
Proof.
  assert (Hneg : isRegisteredFunctionID m (-1) = false).
  { unfold isRegisteredFunctionID. apply bool_decide_eq_false. lia. }
  split_and!.
  - done.
  - done.
  - unfold getEntryPointIndex. intros Hi. unfold generate. rewrite Hi, Hneg.
    by destruct (valid_ m).
  - intros bm m' Hg. apply generate_Done in Hg as (_ & Hreg & _).
    unfold isRegisteredFunctionID in Hreg.
    by apply bool_decide_eq_true in Hreg.
  - intros i Hreg Hi.
    pose proof Hreg as Hreg'. unfold isRegisteredFunctionID in Hreg'.
    apply bool_decide_eq_true in Hreg'.
    assert (Hti : to_int i = i) by (apply to_int_small; lia).
    unfold getEntryPointIndex, setEntryPointIndex. rewrite Hti.
    split; [done|]. intros Hv. unfold generate. simpl. rewrite Hv. simpl.
    unfold isRegisteredFunctionID in *. simpl. by rewrite Hreg.
Qed.

End generate_facts.

(** A generator with one registered function: [generate()] fails while the
    entry point is unset, produces the module once it is set, and fails on
    the generator that call leaves. *)
Example generate_twice :
  let assemble := λ _ : ModuleGen.BytecodeModuleGenerator
                          unit unit unit unit unit unit nat, tt in
  let m0 := (ModuleGen.addFunction 42%nat (ModuleGen.newGenerator tt tt tt)).2 in
  let m1 := ModuleGen.setEntryPointIndex 0 m0 in
  ModuleGen.generate assemble id m0 =
    Fatal "entry point index is not a registered function" ∧
  ModuleGen.generate assemble id m1 =
    Done (tt, ModuleGen.with_valid false m1) ∧
  ModuleGen.generate assemble id (ModuleGen.with_valid false m1) =
    Fatal "generate() cannot be called more than once".
Proof. vm_compute. split_and!; reflexivity. Qed.

(** * Further properties of the code of the header *)

(** ** The allocation table on any table and any sequence of calls *)

Section AllocationTable_more.
Context {T : Type} `{Countable T}.
Implicit Types (tbl : AllocationTable T) (v : T) (vals : list T).

(** A value that is a key of the map: its entry comes back. *)
Lemma allocate_hit tbl v id :
  indexMap_ tbl !! v = Some id → allocate v tbl = (id, tbl).
Proof. intros Hv. unfold allocate. by rewrite Hv. Qed.

(** After the call the value is a key of the map, under the id returned. *)
Lemma allocate_records tbl v :
  indexMap_ (allocate v tbl).2 !! v = Some (allocate v tbl).1.
Proof.
  unfold allocate. destruct (indexMap_ tbl !! v) as [id|] eqn:Hv; simpl.
  - done.
  - apply lookup_insert_eq.
Qed.

(** One call removes and overwrites nothing, in the map or in the vector. *)
Lemma allocate_extends tbl v :
  indexMap_ tbl ⊆ indexMap_ (allocate v tbl).2 ∧
  elements_ tbl `prefix_of` elements_ (allocate v tbl).2.
Proof.
  unfold allocate. destruct (indexMap_ tbl !! v) as [id|] eqn:Hv; simpl.
  - done.
  - split; [by apply insert_subseteq|by apply prefix_app_r].
Qed.

Lemma allocateAll_extends vals tbl :
  indexMap_ tbl ⊆ indexMap_ (allocateAll vals tbl).2 ∧
  elements_ tbl `prefix_of` elements_ (allocateAll vals tbl).2.
Proof.
  revert tbl. induction vals as [|v vs IH]; intros tbl; simpl; [done|].
  destruct (allocate_extends tbl v) as [Hm He].
  destruct (allocate v tbl) as [id tbl1]. simpl in *.
  destruct (IH tbl1) as [Hm' He'].
  destruct (allocateAll vs tbl1) as [ids tbl2]. simpl in *.
  split; by etrans.
Qed.

(** Every id returned in a sequence is the map's entry for its value at the
    end of the sequence. *)
Lemma allocateAll_recorded vals tbl :
  Forall2 (λ v id, indexMap_ (allocateAll vals tbl).2 !! v = Some id)
          vals (allocateAll vals tbl).1.
Proof.
  revert tbl. induction vals as [|v vs IH]; intros tbl; simpl; [constructor|].
  pose proof (allocate_records tbl v) as Hr.
  destruct (allocate v tbl) as [id tbl1]. simpl in *.
  pose proof (allocateAll_extends vs tbl1) as [Hm _].
  specialize (IH tbl1).
  destruct (allocateAll vs tbl1) as [ids tbl2]. simpl in *.
  constructor; [|done]. by eapply lookup_weaken.
Qed.

Lemma allocateAll_hits vals ids tbl :
  Forall2 (λ v id, indexMap_ tbl !! v = Some id) vals ids →
  allocateAll vals tbl = (ids, tbl).
Proof.
  induction 1 as [|v id vs ids Hv _ IH]; simpl; [done|].
  rewrite (allocate_hit _ _ _ Hv), IH. done.
Qed.

Lemma firstOccurrences_elem seen vals v :
  v ∈ firstOccurrences seen vals ↔ v ∈ seen ∨ v ∈ vals.
Proof.
  revert seen. induction vals as [|w vs IH]; intros seen; simpl.
  - rewrite elem_of_nil. tauto.
  - unfold firstOccurrences in *. simpl. rewrite IH, elem_of_cons.
    case_decide as Hin.
    + split; [tauto|]. intros [?|[->|?]]; tauto.
    + rewrite elem_of_app, list_elem_of_singleton. tauto.
Qed.

(** Two sequences one after the other. *)
Lemma allocateAll_app vals1 vals2 tbl :
  allocateAll (vals1 ++ vals2) tbl =
    ((allocateAll vals1 tbl).1 ++
       (allocateAll vals2 (allocateAll vals1 tbl).2).1,
     (allocateAll vals2 (allocateAll vals1 tbl).2).2).
Proof.
  revert tbl. induction vals1 as [|v vs IH]; intros tbl; simpl.
  - by destruct (allocateAll vals2 tbl).
  - destruct (allocate v tbl) as [id tbl1]. rewrite IH.
    destruct (allocateAll vs tbl1) as [ids1 tbl2]. simpl.
    by destruct (allocateAll vals2 tbl2).
Qed.

(** X1.  After every sequence of [allocate] calls on a new table the map
    and the vector agree: they have the same number of entries, and the map
    sends a value to an id exactly when the vector holds that value at that
    index. *)
Theorem allocate_map_vector_agree vals :
  let tbl := (allocateAll vals emptyTable).2 in
  size (indexMap_ tbl) = length (getElements tbl) ∧
  ∀ v i, indexMap_ tbl !! v = Some i ↔ getElements tbl !! i = Some v.
Proof.
  intros tbl. apply (allocateAll_consistent vals emptyTable).
  apply emptyTable_consistent.
Qed.

(** X2.  Whatever the table holds, a sequence of [allocate] calls removes
    and changes nothing: every entry of the map is still there with its
    id, every element of the vector is still at its index, and neither
    container gets smaller. *)
Theorem allocate_never_forgets vals tbl :
  let tbl' := (allocateAll vals tbl).2 in
  (∀ v id, indexMap_ tbl !! v = Some id → indexMap_ tbl' !! v = Some id) ∧
  (∀ i v, getElements tbl !! i = Some v → getElements tbl' !! i = Some v) ∧
  (size (indexMap_ tbl) ≤ size (indexMap_ tbl'))%nat ∧
  (length (getElements tbl) ≤ length (getElements tbl'))%nat.
Proof.
  intros tbl'. destruct (allocateAll_extends vals tbl) as [Hm He].
  fold tbl' in Hm, He. unfold getElements. split_and!.
  - intros v id Hv. by eapply lookup_weaken.
  - intros i v Hi. by eapply prefix_lookup_Some.
  - by apply map_subseteq_size.
  - by apply prefix_length.
Qed.

(** X3.  After a sequence of [allocate] calls on a new table, [getElements()]
    holds exactly the values that were passed, each once: its length is the
    number of distinct values of the sequence. *)
Theorem getElements_distinct_values vals :
  let tbl := (allocateAll vals emptyTable).2 in
  (∀ v, v ∈ getElements tbl ↔ v ∈ vals) ∧
  getElements tbl ≡ₚ remove_dups vals ∧
  length (getElements tbl) = length (remove_dups vals) ∧
  (length (getElements tbl) ≤ length vals)%nat.
Proof.
  intros tbl. unfold getElements.
  pose proof (allocateAll_consistent vals emptyTable emptyTable_consistent)
    as Hc. fold tbl in Hc.
  pose proof (allocateAll_elements vals emptyTable emptyTable_consistent)
    as Hel. fold tbl in Hel. simpl in Hel.
  assert (Hin : ∀ v, v ∈ elements_ tbl ↔ v ∈ vals).
  { intros v. rewrite Hel, firstOccurrences_elem, elem_of_nil. tauto. }
  assert (Hperm : elements_ tbl ≡ₚ remove_dups vals).
  { apply NoDup_Permutation.
    - by apply consistent_NoDup.
    - apply NoDup_remove_dups.
    - intros v. by rewrite Hin, elem_of_remove_dups. }
  split_and!; [done|done|by rewrite Hperm|].
  apply submseteq_length, NoDup_submseteq; [by apply consistent_NoDup|].
  intros v. by rewrite Hin.
Qed.

(** X4.  Whatever the table holds, making the same sequence of [allocate]
    calls a second time returns the same ids as the first time and leaves
    the table as the first sequence left it. *)
Theorem allocateAll_replay vals tbl :
  let ids := (allocateAll vals tbl).1 in
  let tbl' := (allocateAll vals tbl).2 in
  allocateAll vals tbl' = (ids, tbl') ∧
  allocateAll (vals ++ vals) tbl = (ids ++ ids, tbl').
Proof.
  intros ids tbl'.
  assert (Hre : allocateAll vals tbl' = (ids, tbl')).
  { apply allocateAll_hits, allocateAll_recorded. }
  split; [done|].
  rewrite allocateAll_app. fold ids tbl'. by rewrite Hre.
Qed.

End AllocationTable_more.

(** ** The per-function generator: how its operations combine *)

Section FunctionGen_more.
Import FunctionGen.
Context {HBCExceptionHandlerInfo DebugSourceLocation Identifier : Type}.
Context (jumpLongVariants : list (Z * Z)).
Implicit Types
  g : BytecodeFunctionGenerator
        HBCExceptionHandlerInfo DebugSourceLocation Identifier.

(** What a completed [longToShortJump] did. *)
Lemma longToShortJump_Done g g' loc :
  longToShortJump jumpLongVariants loc g = Done g' →
  ∃ op shortOp,
    opcodes_ g !! loc = Some op ∧
    shortVariant jumpLongVariants op = Some shortOp ∧
    g' = with_opcodes (<[loc := shortOp]> (opcodes_ g)) g.
Proof.
  unfold longToShortJump.
  destruct (opcodes_ g !! loc) as [op|] eqn:Hop; [|done].
  destruct (shortVariant jumpLongVariants op) as [shortOp|] eqn:Hsv; [|done].
  intros [= <-]. by exists op, shortOp.
Qed.

(** X5.  A [longToShortJump(loc)] that completes was made inside the stream
    and leaves the stream as long as it was, so the size that
    [bytecodeGenerationComplete()] records is the same before and after the
    rewrite, and the two operations can be made in either order. *)
Theorem longToShortJump_keeps_size g g' loc :
  longToShortJump jumpLongVariants loc g = Done g' →
  (loc < length (opcodes_ g))%nat ∧
  length (opcodes_ g') = length (opcodes_ g) ∧
  bytecodeSize_ (bytecodeGenerationComplete g') =
    bytecodeSize_ (bytecodeGenerationComplete g) ∧
  longToShortJump jumpLongVariants loc (bytecodeGenerationComplete g) =
    Done (bytecodeGenerationComplete g').
Proof.
  intros Hd.
  destruct (longToShortJump_Done _ _ _ Hd) as (op & shortOp & Hop & Hsv & ->).
  split_and!.
  - by eapply lookup_lt_Some.
  - simpl. apply length_insert.
  - unfold bytecodeGenerationComplete. simpl. by rewrite length_insert.
  - unfold longToShortJump, bytecodeGenerationComplete. simpl.
    rewrite Hop, Hsv, length_insert. done.
Qed.

(** X6.  When no short opcode of the list is itself the long opcode of an
    entry, a second [longToShortJump] at a location that was already
    rewritten takes the fatal "Unknown jump opcode" path. *)
Theorem longToShortJump_twice g g' loc :
  Forall (λ entry, shortVariant jumpLongVariants entry.1 = None)
         jumpLongVariants →
  longToShortJump jumpLongVariants loc g = Done g' →
  longToShortJump jumpLongVariants loc g' = Fatal "Unknown jump opcode".
Proof.
  intros Hshort Hd.
  destruct (longToShortJump_Done _ _ _ Hd) as (op & shortOp & Hop & Hsv & ->).
  unfold longToShortJump. simpl.
  rewrite list_lookup_insert_eq by by eapply lookup_lt_Some.
  apply shortVariant_Some in Hsv.
  rewrite Forall_forall in Hshort. specialize (Hshort _ Hsv). simpl in Hshort.
  by rewrite Hshort.
Qed.

(** X7.  The frame size is the one given to [create], as a [uint32_t], and
    no operation of the generator changes it afterwards. *)
Theorem frameSize_fixed g (noLocation : DebugSourceLocation) (frameSize : Z) :
  getFrameSize (create (HBCExceptionHandlerInfo:=HBCExceptionHandlerInfo)
                  (Identifier:=Identifier) noLocation frameSize)
    = frameSize mod 2 ^ 32 ∧
  (0 ≤ frameSize < 2 ^ 32 →
   getFrameSize (create (HBCExceptionHandlerInfo:=HBCExceptionHandlerInfo)
                   (Identifier:=Identifier) noLocation frameSize)
     = frameSize) ∧
  (∀ location, getFrameSize (setSourceLocation location g) = getFrameSize g) ∧
  (∀ names, getFrameSize (setDebugVariableNames names g) = getFrameSize g) ∧
  (∀ parentID, getFrameSize (setLexicalParentID parentID g) = getFrameSize g) ∧
  (∀ sz, getFrameSize (setHighestReadCacheIndex sz g) = getFrameSize g) ∧
  (∀ sz, getFrameSize (setHighestWriteCacheIndex sz g) = getFrameSize g) ∧
  getFrameSize (bytecodeGenerationComplete g) = getFrameSize g ∧
  (∀ loc g', longToShortJump jumpLongVariants loc g = Done g' →
             getFrameSize g' = getFrameSize g).
Proof.
  split_and!; try done.
  - intros Hr. unfold getFrameSize, create, to_uint32. simpl.
    apply Z.mod_small. lia.
  - intros loc g' Hd.
    by destruct (longToShortJump_Done _ _ _ Hd) as (? & ? & _ & _ & ->).
Qed.

(** X8.  [hasDebugInfo()] holds exactly when there is a debug location or a
    debug variable name.  It does not hold on a new generator; after
    [setDebugVariableNames(names)] it holds exactly when there is a debug
    location or [names] is not empty, so setting an empty list on a
    generator without debug locations takes the debug info away; the other
    setters and [bytecodeGenerationComplete()] do not change it. *)
Theorem hasDebugInfo_spec g (noLocation : DebugSourceLocation) (frameSize : Z)
    (names : list Identifier) :
  (hasDebugInfo g = true ↔
   getDebugLocations g ≠ [] ∨ getDebugVariableNames g ≠ []) ∧
  hasDebugInfo (create (HBCExceptionHandlerInfo:=HBCExceptionHandlerInfo)
                  (Identifier:=Identifier) noLocation frameSize) = false ∧
  (hasDebugInfo (setDebugVariableNames names g) = true ↔
   getDebugLocations g ≠ [] ∨ names ≠ []) ∧
  (getDebugLocations g = [] →
   hasDebugInfo (setDebugVariableNames [] g) = false) ∧
  (∀ location, hasDebugInfo (setSourceLocation location g) = hasDebugInfo g) ∧
  (∀ parentID, hasDebugInfo (setLexicalParentID parentID g) = hasDebugInfo g) ∧
  (∀ sz, hasDebugInfo (setHighestReadCacheIndex sz g) = hasDebugInfo g) ∧
  (∀ sz, hasDebugInfo (setHighestWriteCacheIndex sz g) = hasDebugInfo g) ∧
  hasDebugInfo (bytecodeGenerationComplete g) = hasDebugInfo g.
Proof.
  assert (Hchar : ∀ (locs : list DebugSourceLocation) (ns : list Identifier),
            negb (match locs with [] => true | _ => false end) ||
            negb (match ns with [] => true | _ => false end) = true ↔
            locs ≠ [] ∨ ns ≠ []).
  { intros [|l locs] [|n ns]; simpl; split; try done.
    - intros [?|?]; done.
    - intros _. by right.
    - intros _. by left.
    - intros _. by left. }
  split_and!; try done.
  - apply Hchar.
  - apply Hchar.
  - intros Hl. unfold hasDebugInfo, getDebugLocations in *. simpl.
    by rewrite Hl.
Qed.

(** X9.  The cache index setters overwrite: after two calls the value
    recorded is the one of the second call, also when it is the smaller of
    the two, so the member holds the last index set and not the highest.
    The read and the write index do not affect each other, and setting
    the one and the other can be done in either order. *)
Theorem cacheIndex_last_write_wins g (a b : Z) :
  setHighestReadCacheIndex a (setHighestReadCacheIndex b g) =
    setHighestReadCacheIndex a g ∧
  setHighestWriteCacheIndex a (setHighestWriteCacheIndex b g) =
    setHighestWriteCacheIndex a g ∧
  (0 ≤ a ≤ 255 →
   highestReadCacheIndex_
     (setHighestReadCacheIndex a (setHighestReadCacheIndex b g)) = a ∧
   highestWriteCacheIndex_
     (setHighestWriteCacheIndex a (setHighestWriteCacheIndex b g)) = a) ∧
  highestWriteCacheIndex_ (setHighestReadCacheIndex a g) =
    highestWriteCacheIndex_ g ∧
  highestReadCacheIndex_ (setHighestWriteCacheIndex a g) =
    highestReadCacheIndex_ g ∧
  setHighestReadCacheIndex a (setHighestWriteCacheIndex b g) =
    setHighestWriteCacheIndex b (setHighestReadCacheIndex a g).
Proof.
  split_and!; try done.
  intros Ha. unfold setHighestReadCacheIndex, setHighestWriteCacheIndex,
    to_uint8. simpl. rewrite Z.mod_small by lia. done.
Qed.

End FunctionGen_more.

(** A long jump at offset 0, rewritten and then measured, or measured and
    then rewritten. *)
Lemma longToShortJump_keeps_size_witness :
  let table := [(10, 11); (12, 13)] in
  let g := FunctionGen.with_opcodes [13; 200; 0; 0; 0]
             (FunctionGen.create (Identifier:=unit)
                (HBCExceptionHandlerInfo:=unit) tt 1) in
  let g' := FunctionGen.with_opcodes [12; 200; 0; 0; 0] g in
  FunctionGen.bytecodeSize_ (FunctionGen.bytecodeGenerationComplete g') =
    FunctionGen.bytecodeSize_ (FunctionGen.bytecodeGenerationComplete g).
Proof.
  intros table g g'.
  exact (proj1 (proj2 (proj2
           (longToShortJump_keeps_size table g g' 0%nat eq_refl)))).
Defined.

(** The same jump rewritten a second time. *)
Lemma longToShortJump_twice_witness :
  let table := [(10, 11); (12, 13)] in
  let g := FunctionGen.with_opcodes [13; 200; 0; 0; 0]
             (FunctionGen.create (Identifier:=unit)
                (HBCExceptionHandlerInfo:=unit) tt 1) in
  let g' := FunctionGen.with_opcodes [12; 200; 0; 0; 0] g in
  FunctionGen.longToShortJump table 0 g' = Fatal "Unknown jump opcode".
Proof.
  intros table g g'.
  apply (longToShortJump_twice table g g' 0%nat); [|reflexivity].
  repeat constructor.
Defined.

(** ** The module generator: the entry point index *)

Section entryPoint_more.
Import ModuleGen.
Context {HBCExceptionHandlerInfo DebugSourceLocation Identifier : Type}.
Context {UniquingStringTable UniquingRegExpTable : Type}.
Context {BytecodeGenerationOptions : Type}.
Context {Function : Type} `{Countable Function}.
Implicit Types
  m : BytecodeModuleGenerator
        HBCExceptionHandlerInfo DebugSourceLocation Identifier
        UniquingStringTable UniquingRegExpTable BytecodeGenerationOptions
        Function.

(** X10.  For every value [i] of an [int], [getEntryPointIndex()] after
    [setEntryPointIndex(i)] is [i], whether or not [i] is the id of a
    function (the setter checks nothing, and -1 can be set again); a later
    call replaces the index of an earlier one; and the setter changes no
    other member: the generator stays as valid as it was, with the same
    function ids and the same literal buffers. *)
Theorem entryPointIndex_roundtrip m (i j : Z) :
  - 2 ^ 31 ≤ i < 2 ^ 31 →
  getEntryPointIndex (setEntryPointIndex i m) = i ∧
  getEntryPointIndex (setEntryPointIndex i (setEntryPointIndex j m)) = i ∧
  setEntryPointIndex i (setEntryPointIndex j m) = setEntryPointIndex i m ∧
  valid_ (setEntryPointIndex i m) = valid_ m ∧
  functionIDMap_ (setEntryPointIndex i m) = functionIDMap_ m ∧
  functionGenerators_ (setEntryPointIndex i m) = functionGenerators_ m ∧
  arrayBuffer_ (setEntryPointIndex i m) = arrayBuffer_ m ∧
  objKeyBuffer_ (setEntryPointIndex i m) = objKeyBuffer_ m ∧
  objValBuffer_ (setEntryPointIndex i m) = objValBuffer_ m.
Proof.
  intros Hi. unfold getEntryPointIndex, setEntryPointIndex. simpl.
  rewrite to_int_small by done. split_and!; done.
Qed.

End entryPoint_more.

(** The entry point of a new generator set to 7, then back to -1. *)
Lemma entryPointIndex_roundtrip_witness :
  let m := ModuleGen.newGenerator (HBCExceptionHandlerInfo:=unit)
             (DebugSourceLocation:=unit) (Identifier:=unit)
             (Function:=nat) tt tt tt in
  ModuleGen.getEntryPointIndex
    (ModuleGen.setEntryPointIndex (-1) (ModuleGen.setEntryPointIndex 7 m)) = -1.
Proof.
  intros m.
  exact (proj1 (proj2 (entryPointIndex_roundtrip m (-1) 7
                         ltac:(lia)))).
Defined.

(** ** The per-function generator: rewriting several jumps *)

Section longToShortJump_order.
Import FunctionGen.
Context {HBCExceptionHandlerInfo DebugSourceLocation Identifier : Type}.
Context (jumpLongVariants : list (Z * Z)).
Implicit Types
  g : BytecodeFunctionGenerator
        HBCExceptionHandlerInfo DebugSourceLocation Identifier.

(** X11.  Two long jumps at different locations can be rewritten in either
    order: when [longToShortJump] completes at each of the two locations of
    a generator, it also completes at the one location after the other was
    rewritten, and both orders end in the same generator. *)
Theorem longToShortJump_commute g g1 g2 loc1 loc2 :
  loc1 ≠ loc2 →
  longToShortJump jumpLongVariants loc1 g = Done g1 →
  longToShortJump jumpLongVariants loc2 g = Done g2 →
  ∃ g12,
    longToShortJump jumpLongVariants loc2 g1 = Done g12 ∧
    longToShortJump jumpLongVariants loc1 g2 = Done g12 ∧
    length (opcodes_ g12) = length (opcodes_ g).
Proof.
  intros Hne Hd1 Hd2.
  destruct (longToShortJump_Done _ _ _ _ Hd1) as (op1 & s1 & Hop1 & Hsv1 & ->).
  destruct (longToShortJump_Done _ _ _ _ Hd2) as (op2 & s2 & Hop2 & Hsv2 & ->).
  exists (with_opcodes (<[loc2 := s2]> (<[loc1 := s1]> (opcodes_ g))) g).
  unfold longToShortJump. simpl.
  rewrite !list_lookup_insert_ne by done. rewrite Hop1, Hop2, Hsv1, Hsv2.
  split_and!.
  - done.
  - unfold with_opcodes. simpl. by rewrite list_insert_insert_ne.
  - by rewrite !length_insert.
Qed.

End longToShortJump_order.

(** Two long jumps, at offsets 0 and 5 of a ten-byte stream. *)
Lemma longToShortJump_commute_witness :
  let table := [(10, 11); (12, 13)] in
  let g := FunctionGen.with_opcodes [13; 200; 0; 0; 0; 11; 100; 0; 0; 0]
             (FunctionGen.create (Identifier:=unit)
                (HBCExceptionHandlerInfo:=unit) tt 1) in
  let g1 := FunctionGen.with_opcodes [12; 200; 0; 0; 0; 11; 100; 0; 0; 0] g in
  let g2 := FunctionGen.with_opcodes [13; 200; 0; 0; 0; 10; 100; 0; 0; 0] g in
  ∃ g12,
    FunctionGen.longToShortJump table 5 g1 = Done g12 ∧
    FunctionGen.longToShortJump table 0 g2 = Done g12 ∧
    length (FunctionGen.opcodes_ g12) = length (FunctionGen.opcodes_ g).
Proof.
  intros table g g1 g2.
  apply (longToShortJump_commute table g g1 g2 0%nat 5%nat);
    [lia|reflexivity|reflexivity].
Defined.
